(** * Ravenfoot password generator: the generation core of
      [generator_core/teletext_generator.py]

    The development embeds [pick_words_dynamic], [distribute_tokens] and
    [generate_password] together with the part of the [random] and [math]
    modules they call.  Python exceptions are values of [exn]; the module
    level generator of [random] is an explicit stream of raw draws threaded
    through every call, one raw draw for each call of [_randbelow] or
    [random.random]; Python floats are idealised as real numbers, without
    rounding or overflow. *)

From Stdlib Require Import String Ascii Bool ZArith NArith Lia List.
From Stdlib Require Import Permutation Reals Lra.
From Equations Require Import Equations.
Import ListNotations.

Set Implicit Arguments.

(** ** Exceptions and the generator monad *)

(** The two exceptions the core can raise: [IndexError] (subscript out of
    range, [random.choice] on an empty sequence) and [ValueError]
    ([random.randrange] on an empty range, [math.log2] outside its domain). *)
Inductive exn : Set :=
| IndexError
| ValueError.

Inductive result (A : Type) : Type :=
| Ok (a : A)
| Raise (e : exn).

Arguments Ok {A} a.
Arguments Raise {A} e.

(** The state of the module level generator: the raw draws still to come. *)
Definition rng : Type := nat -> N.

Definition advance (g : rng) : rng := fun i => g (S i).

(** A computation reads and advances the generator and either returns a
    value or raises. *)
Definition M (A : Type) : Type := rng -> result (A * rng).

Definition ret {A} (a : A) : M A := fun g => Ok (a, g).

Definition bind {A B} (m : M A) (k : A -> M B) : M B :=
  fun g =>
    match m g with
    | Ok (a, g') => k a g'
    | Raise e => Raise e
    end.

Definition raise {A} (e : exn) : M A := fun _ => Raise e.

Declare Scope gen_scope.
Delimit Scope gen_scope with gen.
Notation "x <- m ;; k" := (bind m (fun x => k))
  (at level 61, m at next level, right associativity) : gen_scope.
Local Open Scope gen_scope.

(** The value of a run, the generator forgotten. *)
Definition value {A} (r : result (A * rng)) : result A :=
  match r with
  | Ok (a, _) => Ok a
  | Raise e => Raise e
  end.

(** ** Python sequences *)

(** [l[i]] for a non-negative index: [IndexError] out of range. *)
Definition getitem {A} (l : list A) (i : nat) : M A :=
  match nth_error l i with
  | Some a => ret a
  | None => raise IndexError
  end.

(** [l[i] = a] in place, for an index in range; it is only used after
    [l[i]] has been read. *)
Fixpoint setitem {A} (l : list A) (i : nat) (a : A) : list A :=
  match l, i with
  | [], _ => []
  | _ :: t, O => a :: t
  | h :: t, S j => h :: setitem t j a
  end.

(** [[m for _ in range(n)]]: [n] runs of [m] in order, stopping at the
    first exception. *)
Fixpoint comprehension {A} (n : nat) (m : M A) : M (list A) :=
  match n with
  | O => ret []
  | S k => x <- m ;; xs <- comprehension k m ;; ret (x :: xs)
  end.

(** ** The [random] module *)

(** [_randbelow(n)] for [n > 0]: an integer in [[0, n)].  One raw draw is
    reduced modulo [n]; every value below [n] is reached by some draw. *)
Definition randbelow (n : nat) : M nat :=
  fun g => Ok (N.to_nat (g O mod N.of_nat n), advance g).

(** [random.choice(seq)]. *)
Definition choice {A} (seq : list A) : M A :=
  match seq with
  | [] => raise IndexError
  | _ :: _ => i <- randbelow (length seq) ;; getitem seq i
  end.

(** [random.randrange(stop)]: [ValueError] on an empty range. *)
Definition randrange (stop : nat) : M nat :=
  match stop with
  | O => raise ValueError
  | S _ => randbelow stop
  end.

(** [random.random()]: a float [k / 2^53] with [0 <= k < 2^53]; the value is
    represented by its numerator [k]. *)
Definition random : M N :=
  fun g => Ok ((g O mod 2 ^ 53)%N, advance g).

(** [x < 0.5] for [x = k / 2^53]. *)
Definition lt_half (k : N) : bool := (k <? 2 ^ 52)%N.

(** [x[i], x[j] = x[j], x[i]]. *)
Definition swap {A} (x : list A) (i j : nat) : M (list A) :=
  xj <- getitem x j ;;
  xi <- getitem x i ;;
  ret (setitem (setitem x i xj) j xi).

(** The loop of [random.shuffle(x)],
    [for i in reversed(range(1, len(x))): j = randbelow(i + 1); swap],
    entered at index [i]. *)
Fixpoint shuffle_from {A} (i : nat) (x : list A) : M (list A) :=
  match i with
  | O => ret x
  | S i' =>
      j <- randbelow (i + 1) ;;
      x' <- swap x i j ;;
      shuffle_from i' x'
  end.

Definition shuffle {A} (x : list A) : M (list A) :=
  shuffle_from (length x - 1) x.

(** ** The [math] module *)

Definition log2 (x : R) : R := (ln x / ln 2)%R.

(** [math.log2(x)]: [ValueError] (math domain error) unless [x > 0]. *)
Definition math_log2 (x : R) : M R :=
  if Rlt_dec 0 x then ret (log2 x) else raise ValueError.

(** ** Vocabulary *)

(** The module level tables [WORD_LISTS], [SPECIALS] and [NUMBERS]; they are
    assigned once, when the module is loaded, and only read afterwards. *)
Record Vocabulary : Type := {
  WORD_LISTS : list (list string);
  SPECIALS : list string;
  NUMBERS : list string
}.

(** The module level statements that fill the tables, from the results of
    [load_file_lines] on the specials file, on the numbers file and on every
    [*_words_clean.txt] file in sorted order. *)
Definition load_vocabulary
    (specials numbers : list string) (files : list (list string))
  : Vocabulary :=
  let word_lists :=
    filter (fun words => negb (Nat.eqb (length words) 0)) files in
  {| WORD_LISTS :=
       match word_lists with
       | [] => [["error"; "missing"; "words"]%string]
       | _ :: _ => word_lists
       end;
     SPECIALS := match specials with [] => ["!"%string] | _ :: _ => specials end;
     NUMBERS := match numbers with [] => ["1"%string] | _ :: _ => numbers end |}.

(** What loading establishes: some word list exists and no table is empty. *)
Record loaded (V : Vocabulary) : Prop := {
  loaded_lists : WORD_LISTS V <> [];
  loaded_words : Forall (fun l => l <> []) (WORD_LISTS V);
  loaded_specials : SPECIALS V <> [];
  loaded_numbers : NUMBERS V <> []
}.

(** ** Generator logic *)

(** One word with the tokens attached before and after it: the dictionary
    [{"pre": ..., "word": ..., "post": ...}]. *)
Record decorated_word : Type := {
  pre : string;
  word : string;
  post : string
}.

Definition render (d : decorated_word) : string :=
  (pre d ++ word d ++ post d)%string.

Section Generator.

Variable V : Vocabulary.

(** The loop [while len(selected) < n_words] of [pick_words_dynamic]. *)
Equations fill_selected (n_words : Z) (selected : list string)
  : M (list string)
  by wf (Z.to_nat (n_words - Z.of_nat (length selected))) lt :=
  fill_selected n_words selected
    with Z_lt_dec (Z.of_nat (length selected)) n_words := {
    | left _ =>
        li <- choice (WORD_LISTS V) ;;
        w <- choice li ;;
        fill_selected n_words (selected ++ [w])
    | right _ => ret selected }.
Next Obligation.
  rewrite length_app; simpl; lia.
Qed.

Definition pick_words_dynamic (n_words : Z) : M (list string) :=
  if (n_words <=? 0)%Z then ret []
  else if Nat.eqb (length (WORD_LISTS V)) 1 || (n_words =? 1)%Z then
    chosen_list <- getitem (WORD_LISTS V) 0 ;;
    comprehension (Z.to_nat n_words) (choice chosen_list)
  else
    lists <- shuffle (seq 0 (length (WORD_LISTS V))) ;;
    idx_a <- getitem lists 0 ;;
    idx_b <- getitem lists 1 ;;
    list_a <- getitem (WORD_LISTS V) idx_a ;;
    word_a <- choice list_a ;;
    list_b <- getitem (WORD_LISTS V) idx_b ;;
    word_b <- choice list_b ;;
    selected <- fill_selected n_words [word_a; word_b] ;;
    shuffle selected.

(** The loop [for t in tokens] of [distribute_tokens]. *)
Fixpoint place_tokens (tokens : list string) (decorated : list decorated_word)
  : M (list decorated_word) :=
  match tokens with
  | [] => ret decorated
  | t :: rest =>
      idx <- randrange (length decorated) ;;
      x <- random ;;
      d <- getitem decorated idx ;;
      let d' :=
        if lt_half x
        then {| pre := pre d ++ t; word := word d; post := post d |}
        else {| pre := pre d; word := word d; post := post d ++ t |} in
      place_tokens rest (setitem decorated idx d')
  end.

Definition distribute_tokens (words tokens : list string) : M (list string) :=
  let decorated :=
    map (fun w => {| pre := ""; word := w; post := "" |}) words in
  decorated <- place_tokens tokens decorated ;;
  ret (map render decorated).

(** The entropy expression of [generate_password]; [n_tokens] is
    [len(tokens)]. *)
Definition entropy_bits (n_words n_specials n_numbers : Z) (n_tokens : nat)
  : M R :=
  let total_vocab := list_sum (map (@length string) (WORD_LISTS V)) in
  let avg_vocab :=
    (INR total_vocab / INR (Nat.max 1 (length (WORD_LISTS V))))%R in
  word_bits <- math_log2 (Rmax 2 avg_vocab) ;;
  special_bits <-
    match SPECIALS V with
    | [] => ret 0%R
    | _ :: _ => math_log2 (INR (length (SPECIALS V)))
    end ;;
  number_bits <-
    match NUMBERS V with
    | [] => ret 0%R
    | _ :: _ => math_log2 (INR (length (NUMBERS V)))
    end ;;
  place_bits <- math_log2 (IZR (2 * Z.max 1 n_words)) ;;
  ret (IZR n_words * word_bits
       + IZR n_specials * special_bits
       + IZR n_numbers * number_bits
       + INR n_tokens * place_bits)%R.

Definition generate_password (n_words n_specials n_numbers : Z)
  : M (string * R) :=
  words <- pick_words_dynamic n_words ;;
  specials <-
    comprehension (Z.to_nat (Z.max 0 n_specials)) (choice (SPECIALS V)) ;;
  numbers <-
    comprehension (Z.to_nat (Z.max 0 n_numbers)) (choice (NUMBERS V)) ;;
  tokens <- shuffle (specials ++ numbers) ;;
  parts <- distribute_tokens words tokens ;;
  let pw := String.concat "" parts in
  entropy <- entropy_bits n_words n_specials n_numbers (length tokens) ;;
  ret (pw, entropy).

End Generator.

(** ** Notions the statements use *)

Local Open Scope string_scope.
Local Open Scope list_scope.

(** [returns m P]: from every generator state, [m] returns a value (it never
    raises) and the value satisfies [P]. *)
Definition returns {A} (m : M A) (P : A -> Prop) : Prop :=
  forall g, exists a g', m g = Ok (a, g') /\ P a.

(** [w] is an element of some word list of the collection. *)
Definition in_vocabulary (V : Vocabulary) (w : string) : Prop :=
  exists l, In l (WORD_LISTS V) /\ In w l.

(** ["".join(parts)]. *)
Definition join (parts : list string) : string := String.concat "" parts.

(** The output read as a sequence of segments, each one either a placed
    token or the letters of a word. *)
Inductive segment : Type :=
| Token (t : string)
| Letters (w : string).

Definition segment_text (s : segment) : string :=
  match s with Token t => t | Letters w => w end.

Definition is_letters (s : segment) : bool :=
  match s with Token _ => false | Letters _ => true end.

Definition text (segs : list segment) : string :=
  join (map segment_text segs).

(** Deleting the characters the tokens contributed. *)
Definition delete_tokens (segs : list segment) : list segment :=
  filter is_letters segs.

Fixpoint tokens_of (segs : list segment) : list string :=
  match segs with
  | [] => []
  | Token t :: rest => t :: tokens_of rest
  | Letters _ :: rest => tokens_of rest
  end.

Fixpoint words_of (segs : list segment) : list string :=
  match segs with
  | [] => []
  | Token _ :: rest => words_of rest
  | Letters w :: rest => w :: words_of rest
  end.

(** A decorated word together with the history of its two sides: the tokens
    appended to ["pre"] and to ["post"], in arrival order. *)
Record placement : Type := {
  before : list string;
  core : string;
  after : list string
}.

Definition forget (p : placement) : decorated_word :=
  {| pre := join (before p); word := core p; post := join (after p) |}.

Definition placed (p : placement) : list string := before p ++ after p.

Definition segments (p : placement) : list segment :=
  map Token (before p) ++ Letters (core p) :: map Token (after p).

Definition undecorated (w : string) : placement :=
  {| before := []; core := w; after := [] |}.

(** The four logarithms of the entropy expression, as values: [avg_vocab],
    the bits of a word, of a token table, of a placement. *)
Definition average_vocab (V : Vocabulary) : R :=
  (INR (list_sum (map (@length string) (WORD_LISTS V)))
   / INR (Nat.max 1 (length (WORD_LISTS V))))%R.

Definition word_bits (V : Vocabulary) : R := log2 (Rmax 2 (average_vocab V)).

Definition table_bits (table : list string) : R :=
  match table with
  | [] => 0%R
  | _ :: _ => log2 (INR (length table))
  end.

Definition place_bits (n_words : Z) : R := log2 (IZR (2 * Z.max 1 n_words)).

(** The value [entropy_bits] computes. *)
Definition entropy_value (V : Vocabulary) (n_words n_specials n_numbers : Z)
    (n_tokens : nat) : R :=
  (IZR n_words * word_bits V
   + IZR n_specials * table_bits (SPECIALS V)
   + IZR n_numbers * table_bits (NUMBERS V)
   + INR n_tokens * place_bits n_words)%R.

(** [len(tokens)] for a request. *)
Definition token_count (n_specials n_numbers : Z) : nat :=
  Z.to_nat (Z.max 0 n_specials) + Z.to_nat (Z.max 0 n_numbers).

(** The token pool of [generate_password]: lines 230 to 232. *)
Definition token_pool (V : Vocabulary) (n_specials n_numbers : Z)
  : M (list string) :=
  (specials <-
     comprehension (Z.to_nat (Z.max 0 n_specials)) (choice (SPECIALS V)) ;;
   numbers <-
     comprehension (Z.to_nat (Z.max 0 n_numbers)) (choice (NUMBERS V)) ;;
   shuffle (specials ++ numbers))%gen.

(** The tables when no library file is found. *)
Definition fallback_vocabulary : Vocabulary := load_vocabulary [] [] [].

(** One word list, two specials, two numbers. *)
Definition scenario_vocabulary : Vocabulary :=
  load_vocabulary ["!"; "@"] ["1"; "2"] [["apple"; "berry"]].

(** Two word lists. *)
Definition bilingual_vocabulary : Vocabulary :=
  load_vocabulary ["!"; "@"] ["1"; "2"]
    [["apple"; "berry"]; ["chat"; "chien"; "loup"]].

(** A generator whose raw draws are 1, 11, 35, ... *)
Definition sample_rng : rng := fun i => N.of_nat (7 * i * i + 3 * i + 1).

(** The estimate as the specification words it: four terms over the request
    and the sizes of the vocabulary. *)
Definition estimateEntropy (V : Vocabulary)
    (wordCount specialCount numberCount : Z) : R :=
  (IZR wordCount
   * log2 (Rmax 2 (INR (list_sum (map (@length string) (WORD_LISTS V)))
                   / INR (length (WORD_LISTS V))))
   + IZR specialCount
     * (if Nat.eqb (length (SPECIALS V)) 0 then 0
        else log2 (INR (length (SPECIALS V))))
   + IZR numberCount
     * (if Nat.eqb (length (NUMBERS V)) 0 then 0
        else log2 (INR (length (NUMBERS V))))
   + IZR (specialCount + numberCount) * log2 (IZR (2 * Z.max 1 wordCount)))%R.

(** The sizes the estimate depends on. *)
Definition vocabulary_sizes (V : Vocabulary) : nat * nat * nat * nat :=
  (list_sum (map (@length string) (WORD_LISTS V)), length (WORD_LISTS V),
   length (SPECIALS V), length (NUMBERS V)).

(** [e] is an entropy [generate_password] returns for the request, from
    some generator state. *)
Definition entropy_of (V : Vocabulary) (n_words n_specials n_numbers : Z)
    (e : R) : Prop :=
  exists g pw g',
    generate_password V n_words n_specials n_numbers g = Ok ((pw, e), g').

(** One count of the request grows, the other two stay. *)
Inductive grows : Z * Z * Z -> Z * Z * Z -> Prop :=
| grows_words w w' s n : (w <= w')%Z -> grows (w, s, n) (w', s, n)
| grows_specials w s s' n : (s <= s')%Z -> grows (w, s, n) (w, s', n)
| grows_numbers w s n n' : (n <= n')%Z -> grows (w, s, n) (w, s, n').

(** The scenario with other words and tokens: the same sizes. *)
Definition scenario_vocabulary_fr : Vocabulary :=
  load_vocabulary ["#"; "$"] ["7"; "8"] [["chat"; "loup"]].

Definition zero_rng : rng := fun _ => 0%N.

(** A generator whose draws make [random.random()] at least one half. *)
Definition high_rng : rng := fun i => (2 ^ 52 + N.of_nat i)%N.

(** ** Loading lines *)

(** [c.isspace()] for a character below 256: the ASCII white space, the
    separators 28 to 31, NEL and the no-break space. *)
Definition isspace (c : ascii) : bool :=
  let n := nat_of_ascii c in
  (Nat.leb 9 n && Nat.leb n 13) || (Nat.leb 28 n && Nat.leb n 32)
  || Nat.eqb n 133 || Nat.eqb n 160.

Fixpoint lstrip (s : string) : string :=
  match s with
  | EmptyString => EmptyString
  | String c rest => if isspace c then lstrip rest else s
  end.

Fixpoint rstrip (s : string) : string :=
  match s with
  | EmptyString => EmptyString
  | String c rest =>
      match rstrip rest with
      | EmptyString => if isspace c then EmptyString else String c EmptyString
      | String _ _ as kept => String c kept
      end
  end.

(** [s.strip()]. *)
Definition strip (s : string) : string := rstrip (lstrip s).

(** The truth value of a string: it is not empty. *)
Definition truthy (s : string) : bool :=
  match s with EmptyString => false | String _ _ => true end.

(** [load_file_lines(path)]; the file is [None] when the path does not
    exist and otherwise the decoded lines that iterating over it yields. *)
Definition load_file_lines (file : option (list string)) : list string :=
  match file with
  | None => []
  | Some lines => map strip (filter (fun line => truthy (strip line)) lines)
  end.






(** ** History *)

(** The history file: [None] while it does not exist, otherwise the text
    written to it so far. *)
Definition history : Type := option string.

Definition newline : string := String (ascii_of_nat 10) EmptyString.

(** [append_history(lines)]: the file is created when missing and every
    line is written followed by a newline. *)
Definition append_history (lines : list string) (h : history) : history :=
  let old := match h with None => EmptyString | Some written => written end in
  Some (fold_left (fun f line => (f ++ (line ++ newline))%string) lines old).

(** [clear_history()]: the file is unlinked when it exists. *)
Definition clear_history (h : history) : history :=
  match h with
  | None => None
  | Some _ => None
  end.

(** ** Actions of the interface *)

(** What [int(entry.get())] gives: an integer, or [None] for the
    [ValueError] of a text that is not one. *)
Definition entry : Type := option Z.



(** The loop [for i in range(10)] of [generate], with [count] rounds to
    go. *)
Fixpoint generate_rows (V : Vocabulary) (n_w n_s n_n : Z) (count : nat)
    (results : list string) : M (list string) :=
  match count with
  | O => ret results
  | S rounds =>
      (r <- generate_password V n_w n_s n_n ;;
       generate_rows V n_w n_s n_n rounds (results ++ [fst r]))%gen
  end.

(** What [generate] shows: the error box, or the rows of passwords. *)
Inductive generated : Type :=
| InputError
| Passwords (rows : list string).

(** [generate]: entries that are not integers give the error box; otherwise
    ten passwords are generated and then appended to the history.  An
    exception of [generate_password] leaves the method before the history
    is written. *)
Definition generate (V : Vocabulary) (words specials numbers : entry)
    (h : history) (g : rng) : result (generated * rng) * history :=
  match words, specials, numbers with
  | Some n_w, Some n_s, Some n_n =>
      match generate_rows V n_w n_s n_n 10 [] g with
      | Ok (results, g') =>
          (Ok (Passwords results, g'), append_history results h)
      | Raise e => (Raise e, h)
      end
  | _, _, _ => (Ok (InputError, g), h)
  end.

(** [l1] is [l2] with some elements left out, the order kept. *)
Inductive subseq {A : Type} : list A -> list A -> Prop :=
| subseq_nil : subseq [] []
| subseq_skip x l1 l2 : subseq l1 l2 -> subseq l1 (x :: l2)
| subseq_take x l1 l2 : subseq l1 l2 -> subseq (x :: l1) (x :: l2).


(** What one side of one word gained during a run of the loop. *)
Definition gained (tokens : list string) (p p' : placement) : Prop :=
  core p' = core p
  /\ exists b a,
       before p' = before p ++ b /\ after p' = after p ++ a
       /\ subseq b tokens /\ subseq a tokens.

(** Two words of the result come from two different word lists. *)
Definition diverse (V : Vocabulary) (ws : list string) : Prop :=
  exists i j list_i list_j a b rest,
    i <> j
    /\ nth_error (WORD_LISTS V) i = Some list_i
    /\ nth_error (WORD_LISTS V) j = Some list_j
    /\ In a list_i /\ In b list_j
    /\ Permutation ws (a :: b :: rest).

(** ** Reasoning about runs *)

Lemma returns_ret {A} (a : A) (P : A -> Prop) : P a -> returns (ret a) P.
Proof. intros H g. exists a, g. split; [reflexivity | exact H]. Qed.

Lemma returns_bind {A B} (m : M A) (k : A -> M B) (P : A -> Prop)
    (Q : B -> Prop) :
  returns m P -> (forall a, P a -> returns (k a) Q) -> returns (bind m k) Q.
Proof.
  intros Hm Hk g. destruct (Hm g) as (a & g1 & Ea & Pa).
  destruct (Hk a Pa g1) as (b & g2 & Eb & Qb).
  exists b, g2. split; [| exact Qb]. unfold bind. rewrite Ea. exact Eb.
Qed.

Lemma returns_weaken {A} (m : M A) (P Q : A -> Prop) :
  returns m P -> (forall a, P a -> Q a) -> returns m Q.
Proof.
  intros Hm HPQ g. destruct (Hm g) as (a & g' & E & Pa).
  exists a, g'. split; [exact E | apply HPQ, Pa].
Qed.

(** A run that returned is the run [returns] describes. *)
Lemma returns_run {A} (m : M A) (P : A -> Prop) g a g' :
  returns m P -> m g = Ok (a, g') -> P a.
Proof.
  intros Hm E. destruct (Hm g) as (a0 & g0 & E0 & Pa).
  rewrite E in E0. injection E0 as -> _. exact Pa.
Qed.

Lemma bind_Ok {A B} (m : M A) (k : A -> M B) g b g' :
  bind m k g = Ok (b, g') ->
  exists a g1, m g = Ok (a, g1) /\ k a g1 = Ok (b, g').
Proof.
  unfold bind. destruct (m g) as [[a g1] | e]; [| discriminate].
  intros E. exists a, g1. split; [reflexivity | exact E].
Qed.

Lemma bind_Raise {A B} (m : M A) (k : A -> M B) g e :
  m g = Raise e -> bind m k g = Raise e.
Proof. unfold bind. intros ->. reflexivity. Qed.

Lemma bind_step {A B} (m : M A) (k : A -> M B) g a g1 :
  m g = Ok (a, g1) -> bind m k g = k a g1.
Proof. unfold bind. intros ->. reflexivity. Qed.

Ltac inv_run :=
  repeat match goal with
  | H : bind _ _ _ = Ok _ |- _ =>
      let a := fresh "a" in
      let g := fresh "g" in
      let E := fresh "E" in
      apply bind_Ok in H; destruct H as (a & g & E & H)
  | H : ret _ _ = Ok _ |- _ => unfold ret in H; injection H as ? ?; subst
  | H : raise _ _ = Ok _ |- _ => discriminate H
  end.

(** ** Sequences *)

Lemma getitem_returns {A} (l : list A) i :
  i < length l -> returns (getitem l i) (fun a => nth_error l i = Some a).
Proof.
  intros Hi. unfold getitem. destruct (nth_error l i) as [a |] eqn:E.
  - apply returns_ret. reflexivity.
  - apply nth_error_None in E. lia.
Qed.

Lemma getitem_Ok {A} (l : list A) i g a g' :
  getitem l i g = Ok (a, g') -> nth_error l i = Some a /\ g' = g.
Proof.
  unfold getitem, ret, raise. destruct (nth_error l i); [| discriminate].
  intros [= -> ->]. split; reflexivity.
Qed.

Lemma length_setitem {A} (l : list A) i a :
  length (setitem l i a) = length l.
Proof.
  revert i. induction l as [| h t IH]; intros [| j]; simpl; auto.
Qed.

Lemma nth_error_setitem_kept {A} (l : list A) i j b :
  nth_error l i <> None -> nth_error l j = Some b ->
  nth_error (setitem l i b) j = Some b.
Proof.
  revert i j. induction l as [| h t IH]; intros [| i] [| j]; simpl;
    try congruence; auto.
Qed.

Lemma setitem_map {A B} (f : A -> B) (l : list A) i a :
  setitem (map f l) i (f a) = map f (setitem l i a).
Proof.
  revert i. induction l as [| h t IH]; intros [| j]; simpl; auto.
  rewrite IH. reflexivity.
Qed.

(** Overwriting [l[i]], which held [a], with [b] trades one [a] for one
    [b]. *)
Lemma setitem_Permutation {A} (l : list A) i a b :
  nth_error l i = Some a -> Permutation (b :: l) (a :: setitem l i b).
Proof.
  revert i. induction l as [| h t IH]; intros [| j]; simpl; try discriminate.
  - intros [= ->]. apply perm_swap.
  - intros E. apply IH in E.
    apply perm_trans with (h :: b :: t); [apply perm_swap |].
    apply perm_trans with (h :: a :: setitem t j b);
      [apply perm_skip, E | apply perm_swap].
Qed.

Lemma comprehension_returns {A} (m : M A) (P : A -> Prop) n :
  returns m P ->
  returns (comprehension n m) (fun l => length l = n /\ Forall P l).
Proof.
  intros Hm. induction n as [| n IH]; simpl.
  - apply returns_ret. split; [reflexivity | constructor].
  - eapply returns_bind; [exact Hm |]. intros x Px.
    eapply returns_bind; [exact IH |]. intros xs [Hl Hxs].
    apply returns_ret. simpl. split; [congruence | constructor; assumption].
Qed.

(** ** The [random] module *)

Lemma randbelow_returns n :
  0 < n -> returns (randbelow n) (fun i => i < n).
Proof.
  intros Hn g. unfold randbelow. eexists _, _. split; [reflexivity |].
  assert (g O mod N.of_nat n < N.of_nat n)%N by (apply N.mod_lt; lia).
  lia.
Qed.

Lemma choice_returns {A} (l : list A) :
  l <> [] -> returns (choice l) (fun a => In a l).
Proof.
  intros Hl. destruct l as [| h t]; [congruence |].
  unfold choice. eapply returns_bind.
  - apply randbelow_returns. simpl. lia.
  - intros i Hi. eapply returns_weaken; [apply getitem_returns, Hi |].
    intros a E. eapply nth_error_In, E.
Qed.

Lemma randrange_returns n :
  0 < n -> returns (randrange n) (fun i => i < n).
Proof.
  intros Hn. destruct n as [| k]; [lia |]. apply randbelow_returns, Hn.
Qed.

Lemma random_returns : returns random (fun _ => True).
Proof. intros g. unfold random. eexists _, _. split; [reflexivity | exact I]. Qed.

Lemma swap_returns {A} (x : list A) i j :
  i < length x -> j < length x ->
  returns (swap x i j) (fun y => Permutation y x).
Proof.
  intros Hi Hj. unfold swap.
  eapply returns_bind; [apply getitem_returns, Hj |]. intros xj Ej.
  eapply returns_bind; [apply getitem_returns, Hi |]. intros xi Ei.
  apply returns_ret.
  assert (E1 : Permutation (xj :: x) (xi :: setitem x i xj))
    by (apply setitem_Permutation, Ei).
  assert (E2 : Permutation (xi :: setitem x i xj)
                 (xj :: setitem (setitem x i xj) j xi)).
  { apply setitem_Permutation. apply nth_error_setitem_kept; [| exact Ej].
    rewrite Ei. discriminate. }
  apply Permutation_sym. eapply Permutation_cons_inv.
  eapply perm_trans; [exact E1 | exact E2].
Qed.

Lemma shuffle_from_returns {A} i (x : list A) :
  i < length x \/ i = 0 ->
  returns (shuffle_from i x) (fun y => Permutation y x).
Proof.
  revert x. induction i as [| i IH]; intros x Hi.
  - apply returns_ret. apply Permutation_refl.
  - destruct Hi as [Hi | Hi]; [| discriminate]. simpl shuffle_from.
    eapply returns_bind; [apply (randbelow_returns (n := S i + 1)); lia |].
    intros j Hj. cbv beta in Hj.
    eapply returns_bind; [apply swap_returns; lia |]. intros x' Hx'.
    eapply returns_weaken.
    + apply IH. left. rewrite (Permutation_length Hx'). lia.
    + intros y Hy. cbv beta in Hx', Hy. eapply perm_trans; eassumption.
Qed.

Lemma shuffle_returns {A} (x : list A) :
  returns (shuffle x) (fun y => Permutation y x).
Proof.
  unfold shuffle. apply shuffle_from_returns.
  destruct x as [| h t]; simpl; [right; reflexivity | left; lia].
Qed.

(** ** Word selection *)

Lemma fill_selected_step V n_words selected :
  fill_selected V n_words selected =
  if (Z.of_nat (length selected) <? n_words)%Z
  then li <- choice (WORD_LISTS V) ;;
       w <- choice li ;;
       fill_selected V n_words (selected ++ [w])
  else ret selected.
Proof.
  rewrite fill_selected_equation_1.
  destruct (Z_lt_dec (Z.of_nat (length selected)) n_words) as [H | H]; simpl.
  - apply Z.ltb_lt in H. rewrite H. reflexivity.
  - apply Z.ltb_nlt in H. rewrite H. reflexivity.
Qed.

Lemma fill_selected_returns V n_words selected :
  loaded V -> Forall (in_vocabulary V) selected ->
  returns (fill_selected V n_words selected)
    (fun out => length out = Nat.max (Z.to_nat n_words) (length selected)
                /\ Forall (in_vocabulary V) out).
Proof.
  intros HV.
  remember (Z.to_nat (n_words - Z.of_nat (length selected))) as k eqn:Ek.
  revert selected Ek.
  induction k as [| k IH]; intros selected Ek Hsel;
    rewrite fill_selected_step.
  - destruct (Z.ltb_spec (Z.of_nat (length selected)) n_words) as [H | H];
      [lia |].
    apply returns_ret. split; [lia | exact Hsel].
  - destruct (Z.ltb_spec (Z.of_nat (length selected)) n_words) as [H | H];
      [| lia].
    eapply returns_bind; [apply choice_returns, (loaded_lists HV) |].
    intros li Hli.
    eapply returns_bind.
    { apply choice_returns.
      exact (proj1 (Forall_forall _ _) (loaded_words HV) li Hli). }
    intros w Hw.
    eapply returns_weaken.
    + apply (IH (selected ++ [w])).
      * rewrite length_app. simpl. lia.
      * apply Forall_app. split; [exact Hsel |].
        constructor; [| constructor]. exists li. split; assumption.
    + intros out [Hlen Hout]. split; [| exact Hout].
      rewrite Hlen, length_app. simpl. lia.
Qed.

Lemma Permutation_Forall_length {A} (P : A -> Prop) (x y : list A) n :
  Permutation y x -> length x = n /\ Forall P x -> length y = n /\ Forall P y.
Proof.
  intros Hp [Hl Hf]. split.
  - rewrite (Permutation_length Hp). exact Hl.
  - eapply Permutation_Forall; [apply Permutation_sym, Hp | exact Hf].
Qed.

(** The branch for one word list or one word: [n_words] draws from list 0. *)
Lemma pick_words_dynamic_single V n_words :
  (0 < n_words)%Z ->
  Nat.eqb (length (WORD_LISTS V)) 1 || (n_words =? 1)%Z = true ->
  pick_words_dynamic V n_words =
  (chosen_list <- getitem (WORD_LISTS V) 0 ;;
   comprehension (Z.to_nat n_words) (choice chosen_list)).
Proof.
  intros Hn Hb. unfold pick_words_dynamic.
  destruct (Z.leb_spec n_words 0) as [H | H]; [lia |].
  rewrite Hb. reflexivity.
Qed.

(** Under the loading invariant [pick_words_dynamic] always returns, the
    result has [max(0, n_words)] elements and each is a word of the
    collection. *)
Lemma pick_words_dynamic_returns V n_words :
  loaded V ->
  returns (pick_words_dynamic V n_words)
    (fun ws => length ws = Z.to_nat n_words /\ Forall (in_vocabulary V) ws).
Proof.
  intros HV. unfold pick_words_dynamic.
  destruct (Z.leb_spec n_words 0) as [Hn | Hn].
  { apply returns_ret. split; [simpl; lia | constructor]. }
  pose proof (loaded_lists HV) as Hne.
  pose proof (loaded_words HV) as Hws. rewrite Forall_forall in Hws.
  destruct (Nat.eqb (length (WORD_LISTS V)) 1 || (n_words =? 1)%Z) eqn:Hb.
  - eapply returns_bind.
    { apply getitem_returns. destruct (WORD_LISTS V); [congruence | simpl; lia]. }
    intros l0 E0. apply nth_error_In in E0.
    eapply returns_weaken.
    + apply comprehension_returns, choice_returns, Hws, E0.
    + intros ws [Hl Hf]. split; [exact Hl |].
      eapply Forall_impl; [| exact Hf]. intros w Hw. exists l0. split; assumption.
  - apply orb_false_iff in Hb. destruct Hb as [Hb1 Hb2].
    apply Nat.eqb_neq in Hb1. apply Z.eqb_neq in Hb2.
    assert (Hlen : 2 <= length (WORD_LISTS V)).
    { destruct (WORD_LISTS V) as [| a [| b t]]; simpl in *; [congruence | lia | lia]. }
    eapply returns_bind; [apply shuffle_returns |]. intros lists Hp.
    assert (Hidx : forall i k, nth_error lists i = Some k ->
                     k < length (WORD_LISTS V)).
    { intros i k E. apply nth_error_In in E.
      apply (Permutation_in _ Hp) in E. apply in_seq in E. lia. }
    assert (Hll : length lists = length (WORD_LISTS V)).
    { rewrite (Permutation_length Hp). apply length_seq. }
    eapply returns_bind; [apply getitem_returns; lia |]. intros idx_a Ea.
    eapply returns_bind; [apply getitem_returns; lia |]. intros idx_b Eb.
    eapply returns_bind; [apply getitem_returns, (Hidx _ _ Ea) |].
    intros list_a Ela. apply nth_error_In in Ela.
    eapply returns_bind; [apply choice_returns, Hws, Ela |]. intros word_a Hwa.
    eapply returns_bind; [apply getitem_returns, (Hidx _ _ Eb) |].
    intros list_b Elb. apply nth_error_In in Elb.
    eapply returns_bind; [apply choice_returns, Hws, Elb |]. intros word_b Hwb.
    eapply returns_bind.
    { apply fill_selected_returns; [exact HV |].
      constructor; [exists list_a; split; assumption |].
      constructor; [exists list_b; split; assumption | constructor]. }
    intros selected Hsel.
    eapply returns_weaken; [apply shuffle_returns |].
    intros ws Hp'. eapply Permutation_Forall_length; [exact Hp' |].
    destruct Hsel as [Hl Hf]. split; [| exact Hf].
    rewrite Hl. simpl. lia.
Qed.

(** ** Strings *)

Lemma append_empty_r (s : string) : (s ++ "")%string = s.
Proof. induction s as [| c s IH]; simpl; [| rewrite IH]; reflexivity. Qed.

Lemma append_associative (s t u : string) :
  ((s ++ t) ++ u)%string = (s ++ (t ++ u))%string.
Proof. induction s as [| c s IH]; simpl; [| rewrite IH]; reflexivity. Qed.

Lemma join_cons (s : string) (l : list string) :
  join (s :: l) = (s ++ join l)%string.
Proof.
  unfold join. destruct l as [| t l]; simpl.
  - symmetry. apply append_empty_r.
  - reflexivity.
Qed.

Lemma join_app (l1 l2 : list string) :
  join (l1 ++ l2) = (join l1 ++ join l2)%string.
Proof.
  induction l1 as [| s l1 IH]; [reflexivity |].
  cbn [app]. rewrite !join_cons, IH, append_associative. reflexivity.
Qed.

Lemma join_snoc (l : list string) (t : string) :
  join (l ++ [t]) = (join l ++ t)%string.
Proof.
  rewrite join_app, join_cons. cbn [join String.concat].
  rewrite append_empty_r. reflexivity.
Qed.

(** ** Token placement *)

Lemma place_tokens_returns tokens decorated :
  decorated <> [] ->
  returns (place_tokens tokens decorated)
    (fun ds => length ds = length decorated).
Proof.
  revert decorated. induction tokens as [| t rest IH]; intros decorated Hne.
  - apply returns_ret. reflexivity.
  - simpl place_tokens.
    eapply returns_bind.
    { apply randrange_returns. destruct decorated; [congruence | simpl; lia]. }
    intros idx Hidx.
    eapply returns_bind; [apply random_returns |]. intros x _.
    eapply returns_bind; [apply getitem_returns, Hidx |]. intros d _.
    eapply returns_weaken.
    + apply IH. intros E. apply (f_equal (@length _)) in E.
      rewrite length_setitem in E. destruct decorated; [congruence | discriminate].
    + intros ds Hds. cbv beta in Hds. rewrite Hds. apply length_setitem.
Qed.

(** Every run of the placement loop is mirrored on the histories: words are
    kept in place and each token joins exactly one side of one word. *)
Lemma place_tokens_history tokens :
  forall ps g ds g',
    place_tokens tokens (map forget ps) g = Ok (ds, g') ->
    exists ps',
      ds = map forget ps' /\ map core ps' = map core ps /\
      Permutation (flat_map placed ps') (tokens ++ flat_map placed ps).
Proof.
  induction tokens as [| t rest IH]; intros ps g ds g' Hrun.
  - simpl in Hrun. inv_run. exists ps. repeat split. apply Permutation_refl.
  - simpl place_tokens in Hrun.
    apply bind_Ok in Hrun. destruct Hrun as (idx & g1 & _ & Hrun).
    apply bind_Ok in Hrun. destruct Hrun as (x & g2 & _ & Hrun).
    apply bind_Ok in Hrun. destruct Hrun as (d & g3 & Ed & Hrun).
    apply getitem_Ok in Ed. destruct Ed as [Ed _].
    rewrite nth_error_map in Ed.
    destruct (nth_error ps idx) as [p |] eqn:Ep; [| discriminate].
    injection Ed as <-.
    set (p' := if lt_half x
               then {| before := before p ++ [t]; core := core p;
                       after := after p |}
               else {| before := before p; core := core p;
                       after := after p ++ [t] |}).
    assert (Hd : (if lt_half x
                  then {| pre := (pre (forget p) ++ t)%string;
                          word := word (forget p); post := post (forget p) |}
                  else {| pre := pre (forget p); word := word (forget p);
                          post := (post (forget p) ++ t)%string |})
                 = forget p').
    { unfold p', forget. destruct (lt_half x); simpl; rewrite join_snoc;
        reflexivity. }
    rewrite Hd, setitem_map in Hrun.
    apply IH in Hrun. destruct Hrun as (ps' & -> & Hcore & Hperm).
    exists ps'. split; [reflexivity |].
    pose proof (setitem_Permutation ps idx p' Ep) as Hset.
    split.
    + rewrite Hcore.
      assert (Hc : core p' = core p) by (unfold p'; destruct (lt_half x); reflexivity).
      clear - Ep Hc. revert idx Ep.
      induction ps as [| h tl IHps]; intros [| j]; simpl; try discriminate.
      * intros [= ->]. rewrite Hc. reflexivity.
      * intros E. rewrite (IHps _ E). reflexivity.
    + assert (Hp' : Permutation (placed p') (t :: placed p)).
      { unfold p', placed. destruct (lt_half x); simpl.
        - rewrite <- app_assoc. simpl. apply Permutation_sym, Permutation_middle.
        - rewrite app_assoc. apply Permutation_sym.
          apply (Permutation_cons_append (before p ++ after p) t). }
      apply (Permutation_flat_map placed) in Hset. simpl in Hset.
      assert (HF : Permutation (flat_map placed (setitem ps idx p'))
                     (t :: flat_map placed ps)).
      { apply Permutation_app_inv_l with (l := placed p).
        eapply perm_trans; [apply Permutation_sym, Hset |].
        eapply perm_trans; [apply Permutation_app_tail, Hp' |].
        simpl. apply Permutation_middle. }
      eapply perm_trans; [exact Hperm |].
      eapply perm_trans; [apply Permutation_app_head, HF |].
      apply Permutation_sym, Permutation_middle.
Qed.

(** ** Logarithms *)

Lemma ln_2_pos : (0 < ln 2)%R.
Proof. pose proof ln_lt_2. lra. Qed.

Lemma log2_1 : log2 1 = 0%R.
Proof. unfold log2. rewrite ln_1. lra. Qed.

Lemma log2_2 : log2 2 = 1%R.
Proof. unfold log2. pose proof ln_2_pos. field. lra. Qed.

Lemma log2_le (x y : R) : (0 < x)%R -> (x <= y)%R -> (log2 x <= log2 y)%R.
Proof.
  intros Hx Hxy. unfold log2. pose proof ln_2_pos as H2.
  apply Rmult_le_compat_r; [left; apply Rinv_0_lt_compat, H2 |].
  destruct Hxy as [Hlt | ->]; [left; apply ln_increasing; assumption | right; reflexivity].
Qed.

Lemma log2_nonneg (x : R) : (1 <= x)%R -> (0 <= log2 x)%R.
Proof. intros Hx. rewrite <- log2_1. apply log2_le; lra. Qed.

Lemma math_log2_run (x : R) g :
  (0 < x)%R -> math_log2 x g = Ok (log2 x, g).
Proof.
  intros Hx. unfold math_log2. destruct (Rlt_dec 0 x); [reflexivity | contradiction].
Qed.

(** ** The entropy estimate *)

Lemma word_bits_ge_1 V : (1 <= word_bits V)%R.
Proof.
  unfold word_bits. rewrite <- log2_2. apply log2_le; [lra | apply Rmax_l].
Qed.

Lemma table_bits_nonneg table : (0 <= table_bits table)%R.
Proof.
  destruct table as [| h t]; [right; reflexivity |].
  unfold table_bits. apply log2_nonneg.
  change 1%R with (INR 1). apply le_INR. simpl. lia.
Qed.

Lemma table_bits_run table g :
  match table with
  | [] => ret 0%R
  | _ :: _ => math_log2 (INR (length table))
  end g = Ok (table_bits table, g).
Proof.
  destruct table as [| h t]; [reflexivity |].
  apply math_log2_run. apply lt_0_INR. simpl. lia.
Qed.

Lemma place_arg_ge_2 n_words : (2 <= IZR (2 * Z.max 1 n_words))%R.
Proof. apply IZR_le. lia. Qed.

Lemma place_bits_ge_1 n_words : (1 <= place_bits n_words)%R.
Proof.
  unfold place_bits. rewrite <- log2_2.
  apply log2_le; [lra | apply place_arg_ge_2].
Qed.

Lemma place_bits_le n m : (n <= m)%Z -> (place_bits n <= place_bits m)%R.
Proof.
  intros H. unfold place_bits. apply log2_le.
  - pose proof (place_arg_ge_2 n). lra.
  - apply IZR_le. lia.
Qed.

(** The guards of the expression keep every logarithm in its domain: the
    entropy expression never raises, for any vocabulary and any request. *)
Lemma entropy_bits_run V n_words n_specials n_numbers n_tokens g :
  entropy_bits V n_words n_specials n_numbers n_tokens g =
  Ok (entropy_value V n_words n_specials n_numbers n_tokens, g).
Proof.
  unfold entropy_bits.
  assert (Hw : (0 < Rmax 2 (average_vocab V))%R)
    by (pose proof (Rmax_l 2 (average_vocab V)); lra).
  assert (Hp : (0 < IZR (2 * Z.max 1 n_words))%R)
    by (pose proof (place_arg_ge_2 n_words); lra).
  erewrite bind_step by (apply math_log2_run, Hw).
  erewrite bind_step by (apply table_bits_run).
  erewrite bind_step by (apply table_bits_run).
  erewrite bind_step by (apply math_log2_run, Hp).
  reflexivity.
Qed.

Lemma INR_to_nat_max (z : Z) : INR (Z.to_nat (Z.max 0 z)) = IZR (Z.max 0 z).
Proof. rewrite INR_IZR_INZ, Z2Nat.id by lia. reflexivity. Qed.

Lemma token_count_le s s' n n' :
  (s <= s')%Z -> (n <= n')%Z -> token_count s n <= token_count s' n'.
Proof. unfold token_count. lia. Qed.

(** The estimate does not decrease when a count grows. *)
Lemma entropy_value_le V w w' s s' n n' :
  (w <= w')%Z -> (s <= s')%Z -> (n <= n')%Z ->
  (entropy_value V w s n (token_count s n)
   <= entropy_value V w' s' n' (token_count s' n'))%R.
Proof.
  intros Hw Hs Hn. unfold entropy_value.
  pose proof (word_bits_ge_1 V) as Hwb.
  pose proof (table_bits_nonneg (SPECIALS V)) as Hsb.
  pose proof (table_bits_nonneg (NUMBERS V)) as Hnb.
  pose proof (place_bits_ge_1 w) as Hpb.
  pose proof (place_bits_le Hw) as Hpl.
  pose proof (IZR_le _ _ Hw) as Hw'.
  pose proof (IZR_le _ _ Hs) as Hs'.
  pose proof (IZR_le _ _ Hn) as Hn'.
  pose proof (le_INR _ _ (token_count_le Hs Hn)) as Hk.
  pose proof (pos_INR (token_count s n)) as Hk0.
  assert (H1 : (IZR w * word_bits V <= IZR w' * word_bits V)%R)
    by (apply Rmult_le_compat_r; lra).
  assert (H2 : (IZR s * table_bits (SPECIALS V)
                <= IZR s' * table_bits (SPECIALS V))%R)
    by (apply Rmult_le_compat_r; lra).
  assert (H3 : (IZR n * table_bits (NUMBERS V)
                <= IZR n' * table_bits (NUMBERS V))%R)
    by (apply Rmult_le_compat_r; lra).
  assert (H4 : (INR (token_count s n) * place_bits w
                <= INR (token_count s' n') * place_bits w')%R)
    by (apply Rmult_le_compat; lra).
  lra.
Qed.

(** ** Runs of [distribute_tokens] and [generate_password] *)

Lemma comprehension_length {A} (m : M A) n g l g' :
  comprehension n m g = Ok (l, g') -> length l = n.
Proof.
  revert g l g'. induction n as [| n IH]; intros g l g' Hrun; simpl in Hrun.
  - inv_run. reflexivity.
  - apply bind_Ok in Hrun. destruct Hrun as (x & g1 & _ & Hrun).
    apply bind_Ok in Hrun. destruct Hrun as (xs & g2 & Exs & Hrun).
    inv_run. simpl. f_equal. eapply IH, Exs.
Qed.

Lemma distribute_tokens_returns words tokens :
  words <> [] \/ tokens = [] ->
  returns (distribute_tokens words tokens)
    (fun out => length out = length words).
Proof.
  intros H. unfold distribute_tokens.
  eapply returns_bind with
    (P := fun ds : list decorated_word => length ds = length words).
  - destruct H as [H | ->].
    + eapply returns_weaken.
      * apply place_tokens_returns. destruct words; [congruence | discriminate].
      * intros ds Hds. cbv beta in Hds. rewrite Hds. apply length_map.
    + apply returns_ret. apply length_map.
  - intros ds Hds. apply returns_ret. rewrite length_map. exact Hds.
Qed.

(** With no word to decorate, the first token already fails:
    [random.randrange(0)] raises. *)
Lemma distribute_tokens_no_words t rest g :
  distribute_tokens [] (t :: rest) g = Raise ValueError.
Proof. reflexivity. Qed.

Lemma generate_password_pool V n_words n_specials n_numbers g :
  generate_password V n_words n_specials n_numbers g =
  (words <- pick_words_dynamic V n_words ;;
   tokens <- token_pool V n_specials n_numbers ;;
   parts <- distribute_tokens words tokens ;;
   entropy <-
     entropy_bits V n_words n_specials n_numbers (length tokens) ;;
   ret (join parts, entropy))%gen g.
Proof.
  unfold generate_password, token_pool, bind.
  destruct (pick_words_dynamic V n_words g) as [[words g1] | e];
    [| reflexivity].
  destruct (comprehension _ (choice (SPECIALS V)) g1) as [[sp g2] | e];
    [| reflexivity].
  destruct (comprehension _ (choice (NUMBERS V)) g2) as [[nu g3] | e];
    reflexivity.
Qed.

Lemma token_pool_length V n_specials n_numbers g tokens g' :
  token_pool V n_specials n_numbers g = Ok (tokens, g') ->
  length tokens = token_count n_specials n_numbers.
Proof.
  unfold token_pool. intros Hrun.
  apply bind_Ok in Hrun. destruct Hrun as (sp & g1 & Esp & Hrun).
  apply bind_Ok in Hrun. destruct Hrun as (nu & g2 & Enu & Hrun).
  apply comprehension_length in Esp. apply comprehension_length in Enu.
  eapply returns_run in Hrun; [| apply shuffle_returns]. cbv beta in Hrun.
  rewrite (Permutation_length Hrun), length_app, Esp, Enu. reflexivity.
Qed.

Lemma token_pool_returns V n_specials n_numbers :
  loaded V ->
  returns (token_pool V n_specials n_numbers)
    (fun tokens => length tokens = token_count n_specials n_numbers).
Proof.
  intros HV g.
  assert (H : returns (token_pool V n_specials n_numbers) (fun _ => True)).
  { unfold token_pool.
    eapply returns_bind;
      [apply comprehension_returns, choice_returns, (loaded_specials HV) |].
    intros sp _.
    eapply returns_bind;
      [apply comprehension_returns, choice_returns, (loaded_numbers HV) |].
    intros nu _.
    eapply returns_weaken; [apply shuffle_returns | trivial]. }
  destruct (H g) as (tokens & g' & E & _).
  exists tokens, g'. split; [exact E | eapply token_pool_length, E].
Qed.

(** Whatever [generate_password] returns, its entropy is the value of the
    expression at the request; no vocabulary invariant is needed. *)
Lemma generate_password_entropy V n_words n_specials n_numbers g pw e g' :
  generate_password V n_words n_specials n_numbers g = Ok ((pw, e), g') ->
  e = entropy_value V n_words n_specials n_numbers
        (token_count n_specials n_numbers).
Proof.
  rewrite generate_password_pool. intros Hrun.
  apply bind_Ok in Hrun. destruct Hrun as (words & g1 & _ & Hrun).
  apply bind_Ok in Hrun. destruct Hrun as (tokens & g2 & Etok & Hrun).
  apply bind_Ok in Hrun. destruct Hrun as (parts & g3 & _ & Hrun).
  apply bind_Ok in Hrun. destruct Hrun as (e0 & g4 & Ee & Hrun).
  rewrite entropy_bits_run in Ee. injection Ee as <- _.
  unfold ret in Hrun. injection Hrun as _ <- _.
  apply token_pool_length in Etok. rewrite Etok. reflexivity.
Qed.

(** [generate_password] returns whenever a word is requested or no token
    is. *)
Lemma generate_password_returns V n_words n_specials n_numbers :
  loaded V ->
  (1 <= n_words)%Z \/ token_count n_specials n_numbers = 0 ->
  returns (generate_password V n_words n_specials n_numbers)
    (fun r => snd r = entropy_value V n_words n_specials n_numbers
                        (token_count n_specials n_numbers)).
Proof.
  intros HV Hreq g.
  assert (H : returns
                (words <- pick_words_dynamic V n_words ;;
                 tokens <- token_pool V n_specials n_numbers ;;
                 parts <- distribute_tokens words tokens ;;
                 entropy <-
                   entropy_bits V n_words n_specials n_numbers
                     (length tokens) ;;
                 ret (join parts, entropy))%gen (fun _ => True)).
  { eapply returns_bind; [apply pick_words_dynamic_returns, HV |].
    intros words [Hlen _].
    eapply returns_bind; [apply token_pool_returns, HV |].
    intros tokens Htok. cbv beta in Htok.
    eapply returns_bind.
    { apply distribute_tokens_returns.
      destruct Hreq as [Hw | Hk].
      - left. intros ->. simpl in Hlen. lia.
      - right. rewrite Hk in Htok. destruct tokens; [reflexivity | discriminate]. }
    intros parts _.
    eapply returns_bind with (P := fun _ : R => True).
    { intros g0. eexists _, _. split; [apply entropy_bits_run | exact I]. }
    intros e _. apply returns_ret. exact I. }
  destruct (H g) as ([pw e] & g' & E & _).
  rewrite <- generate_password_pool in E.
  exists (pw, e), g'. split; [exact E |].
  simpl. eapply generate_password_entropy, E.
Qed.

(** With no word and at least one token, [generate_password] raises
    [ValueError]. *)
Lemma generate_password_raises V n_words n_specials n_numbers g :
  loaded V -> (n_words <= 0)%Z -> 0 < token_count n_specials n_numbers ->
  generate_password V n_words n_specials n_numbers g = Raise ValueError.
Proof.
  intros HV Hw Hk. rewrite generate_password_pool.
  assert (Ew : pick_words_dynamic V n_words g = Ok ([], g)).
  { unfold pick_words_dynamic.
    destruct (Z.leb_spec n_words 0); [reflexivity | lia]. }
  erewrite bind_step by exact Ew.
  destruct (token_pool_returns n_specials n_numbers HV g)
    as (tokens & g1 & Etok & Hlen).
  erewrite bind_step by exact Etok.
  destruct tokens as [| t rest]; [simpl in Hlen; lia |].
  apply bind_Raise. apply distribute_tokens_no_words.
Qed.

(** ** Loaded vocabularies *)

(** Loading always establishes the invariant, whatever the files hold. *)
Lemma load_vocabulary_loaded specials numbers files :
  loaded (load_vocabulary specials numbers files).
Proof.
  unfold load_vocabulary.
  set (word_lists :=
         filter (fun words => negb (Nat.eqb (length words) 0)) files).
  assert (Hf : Forall (fun l : list string => l <> []) word_lists).
  { apply Forall_forall. intros l Hl. apply filter_In in Hl.
    destruct Hl as [_ Hl]. destruct l; [discriminate | congruence]. }
  constructor; simpl.
  - destruct word_lists; discriminate.
  - destruct word_lists; [| exact Hf].
    constructor; [discriminate | constructor].
  - destruct specials; discriminate.
  - destruct numbers; discriminate.
Qed.

Lemma table_bits_length table :
  table_bits table =
  if Nat.eqb (length table) 0 then 0%R else log2 (INR (length table)).
Proof. destruct table; reflexivity. Qed.

Lemma entropy_value_estimate V w s n :
  WORD_LISTS V <> [] -> (0 <= s)%Z -> (0 <= n)%Z ->
  entropy_value V w s n (token_count s n) = estimateEntropy V w s n.
Proof.
  intros Hne Hs Hn. unfold entropy_value, estimateEntropy.
  rewrite !table_bits_length. unfold word_bits, average_vocab, place_bits.
  replace (Nat.max 1 (length (WORD_LISTS V))) with (length (WORD_LISTS V))
    by (destruct (WORD_LISTS V); [congruence | simpl; lia]).
  unfold token_count. rewrite plus_INR, !INR_to_nat_max, plus_IZR.
  rewrite !Z.max_r by lia. reflexivity.
Qed.

Lemma entropy_value_sizes V1 V2 w s n k :
  vocabulary_sizes V1 = vocabulary_sizes V2 ->
  entropy_value V1 w s n k = entropy_value V2 w s n k.
Proof.
  unfold vocabulary_sizes. intros [= Hsum Hcount Hsp Hnu].
  unfold entropy_value, word_bits, average_vocab.
  rewrite !table_bits_length, Hsum, Hcount, Hsp, Hnu. reflexivity.
Qed.

Lemma fallback_word_bits : word_bits fallback_vocabulary = log2 3.
Proof.
  unfold word_bits, average_vocab. simpl.
  replace ((1 + 1 + 1) / 1)%R with 3%R by field.
  rewrite Rmax_right by lra. reflexivity.
Qed.

Lemma log2_3_pos : (0 < log2 3)%R.
Proof.
  pose proof (log2_le (x := 2) (y := 3)) as H. rewrite log2_2 in H. lra.
Qed.

(** ** Segments and returned entropies *)

Lemma tokens_of_app s1 s2 : tokens_of (s1 ++ s2) = tokens_of s1 ++ tokens_of s2.
Proof.
  induction s1 as [| [t | w] s1 IH]; simpl; [| rewrite IH |]; auto.
Qed.

Lemma words_of_app s1 s2 : words_of (s1 ++ s2) = words_of s1 ++ words_of s2.
Proof.
  induction s1 as [| [t | w] s1 IH]; simpl; [| | rewrite IH]; auto.
Qed.

Lemma tokens_of_Token l : tokens_of (map Token l) = l.
Proof. induction l as [| t l IH]; simpl; [| rewrite IH]; reflexivity. Qed.

Lemma words_of_Token l : words_of (map Token l) = [].
Proof. induction l as [| t l IH]; simpl; auto. Qed.

Lemma segment_text_Token l : map segment_text (map Token l) = l.
Proof. induction l as [| t l IH]; simpl; [| rewrite IH]; reflexivity. Qed.

Lemma text_app s1 s2 : text (s1 ++ s2) = (text s1 ++ text s2)%string.
Proof. unfold text. rewrite map_app. apply join_app. Qed.

Lemma text_segments p : text (segments p) = render (forget p).
Proof.
  unfold segments, render, forget. simpl.
  rewrite text_app. unfold text at 1. rewrite segment_text_Token.
  unfold text. cbn [map segment_text]. rewrite join_cons, segment_text_Token.
  reflexivity.
Qed.

Lemma text_flat_segments ps :
  text (flat_map segments ps) = join (map (fun p => render (forget p)) ps).
Proof.
  induction ps as [| p ps IH]; [reflexivity |].
  cbn [flat_map map]. rewrite text_app, join_cons, IH, text_segments.
  reflexivity.
Qed.

Lemma tokens_of_flat_segments ps :
  tokens_of (flat_map segments ps) = flat_map placed ps.
Proof.
  induction ps as [| p ps IH]; [reflexivity |].
  cbn [flat_map]. rewrite tokens_of_app, IH. f_equal.
  unfold segments, placed. rewrite tokens_of_app. cbn [tokens_of].
  rewrite !tokens_of_Token. reflexivity.
Qed.

Lemma words_of_flat_segments ps :
  words_of (flat_map segments ps) = map core ps.
Proof.
  induction ps as [| p ps IH]; [reflexivity |].
  cbn [flat_map map]. rewrite words_of_app, IH.
  unfold segments. rewrite words_of_app. cbn [words_of].
  rewrite !words_of_Token. reflexivity.
Qed.

(** What is left of a segment sequence once the tokens are deleted is the
    concatenation of its words. *)
Lemma text_delete_tokens segs :
  text (delete_tokens segs) = join (words_of segs).
Proof.
  induction segs as [| [t | w] segs IH]; [reflexivity | exact IH |].
  unfold delete_tokens, text in *. cbn [filter is_letters map segment_text words_of].
  rewrite !join_cons, IH. reflexivity.
Qed.

Lemma undecorated_forget words :
  map (fun w => {| pre := ""; word := w; post := "" |}) words
  = map forget (map undecorated words).
Proof. rewrite map_map. reflexivity. Qed.

Lemma undecorated_placed words : flat_map placed (map undecorated words) = [].
Proof. induction words as [| w words IH]; [reflexivity | exact IH]. Qed.

Lemma undecorated_core words : map core (map undecorated words) = words.
Proof. rewrite map_map. apply map_id. Qed.

Lemma decorated_around ps :
  Forall2 (fun w o => exists p q, o = (p ++ w ++ q)%string)
    (map core ps) (map (fun p => render (forget p)) ps).
Proof.
  induction ps as [| p ps IH]; constructor; [| exact IH].
  exists (join (before p)), (join (after p)). reflexivity.
Qed.

Lemma entropy_of_value V w s n e :
  entropy_of V w s n e -> e = entropy_value V w s n (token_count s n).
Proof. intros (g & pw & g' & Hrun). eapply generate_password_entropy, Hrun. Qed.

Lemma entropy_of_exists V w s n g :
  loaded V -> (1 <= w)%Z \/ token_count s n = 0 ->
  exists pw e g', generate_password V w s n g = Ok ((pw, e), g').
Proof.
  intros HV Hreq.
  destruct (@generate_password_returns V w s n HV Hreq g)
    as ([pw e] & g' & Hrun & _).
  exists pw, e, g'. exact Hrun.
Qed.

(** ** Sample runs *)

Example shuffle_sample :
  value (shuffle [1; 2; 3; 4; 5] sample_rng) = Ok [1; 5; 3; 4; 2].
Proof. reflexivity. Qed.

Example pick_words_dynamic_sample :
  value (pick_words_dynamic bilingual_vocabulary 5 sample_rng)
  = Ok ["loup"; "loup"; "loup"; "chien"; "berry"].
Proof. vm_compute. reflexivity. Qed.

Example distribute_tokens_prefixes :
  value (distribute_tokens ["a"; "b"; "c"] ["1"; "2"; "!"; "?"] sample_rng)
  = Ok ["a"; "1?b"; "2!c"].
Proof. vm_compute. reflexivity. Qed.

Example distribute_tokens_suffixes :
  value (distribute_tokens ["a"; "b"; "c"] ["1"; "2"; "!"; "?"] high_rng)
  = Ok ["a2"; "b1?"; "c!"].
Proof. vm_compute. reflexivity. Qed.

Example distribute_tokens_empty_words :
  value (distribute_tokens [] ["1"] sample_rng) = Raise ValueError.
Proof. reflexivity. Qed.

Lemma log2_4 : log2 4 = 2%R.
Proof.
  unfold log2. replace 4%R with (2 * 2)%R by lra.
  rewrite ln_mult by lra. pose proof ln_2_pos. field. lra.
Qed.

(** The scenario of the specification: two words, one special and one
    number over tables of two entries each give 2 + 1 + 1 + 4 bits. *)
Example scenario_entropy : estimateEntropy scenario_vocabulary 2 1 1 = 8%R.
Proof.
  unfold estimateEntropy. simpl.
  replace ((1 + 1) / 1)%R with 2%R by field.
  rewrite Rmax_left by lra.
  replace (1 + 1)%R with 2%R by lra.
  rewrite log2_2, log2_4. lra.
Qed.

(** ** Properties of the generator *)

(** C1, on the failing request: asked for no word and one special,
    [generate_password] does not return a pair; [distribute_tokens] calls
    [random.randrange(0)] on the empty word sequence and the [ValueError]
    leaves [generate_password], whatever the generator draws. *)
Theorem generate_password_tokens_without_words_raises :
  forall g, generate_password fallback_vocabulary 0 1 0 g = Raise ValueError.
Proof.
  intros g. apply generate_password_raises.
  - apply load_vocabulary_loaded.
  - lia.
  - unfold token_count. simpl. lia.
Qed.

(** C2, on the failing request: with a negative word count the password is
    the one of the clamped request, the empty string, but the entropy is
    computed from the count as given: [-1 * log2(3)], a negative float,
    where the clamped request [(0, 0, 0)] gives [0.0]. *)
Theorem generate_password_negative_count_entropy :
  forall g,
    value (generate_password fallback_vocabulary (-1) 0 0 g)
    = Ok (""%string, (- log2 3)%R)
    /\ (- log2 3 < 0)%R
    /\ value (generate_password fallback_vocabulary 0 0 0 g)
       = Ok (""%string, 0%R).
Proof.
  intros g. split; [| split].
  - rewrite generate_password_pool.
    erewrite bind_step by reflexivity.
    erewrite bind_step by reflexivity.
    erewrite bind_step by reflexivity.
    erewrite bind_step by apply entropy_bits_run.
    unfold ret, value. do 2 f_equal.
    unfold entropy_value. rewrite fallback_word_bits. simpl INR. lra.
  - pose proof log2_3_pos. lra.
  - rewrite generate_password_pool.
    erewrite bind_step by reflexivity.
    erewrite bind_step by reflexivity.
    erewrite bind_step by reflexivity.
    erewrite bind_step by apply entropy_bits_run.
    unfold ret, value. do 2 f_equal.
    unfold entropy_value. simpl INR. lra.
Qed.

(** C3: for a loaded vocabulary and a request of non-negative counts, the
    entropy [generate_password] returns is the sum of the four terms of the
    estimate, word term, specials term, numbers term and placement term;
    and it does return it whenever a word is requested or no token is. *)
Theorem generate_password_entropy_terms
    V wordCount specialCount numberCount g :
  loaded V ->
  (0 <= wordCount)%Z -> (0 <= specialCount)%Z -> (0 <= numberCount)%Z ->
  (forall pw e g',
      generate_password V wordCount specialCount numberCount g
      = Ok ((pw, e), g') ->
      e = estimateEntropy V wordCount specialCount numberCount)
  /\ ((1 <= wordCount)%Z \/ (specialCount + numberCount = 0)%Z ->
      exists pw g',
        generate_password V wordCount specialCount numberCount g
        = Ok ((pw, estimateEntropy V wordCount specialCount numberCount), g')).
Proof.
  intros HV Hw Hs Hn.
  pose proof (@entropy_value_estimate V wordCount _ _ (loaded_lists HV) Hs Hn)
    as Hest.
  split.
  - intros pw e g' Hrun. apply generate_password_entropy in Hrun.
    rewrite Hrun. exact Hest.
  - intros Hreq.
    assert (Hreq' : (1 <= wordCount)%Z
                    \/ token_count specialCount numberCount = 0).
    { destruct Hreq as [H | H]; [left; exact H | right].
      unfold token_count. lia. }
    destruct (@generate_password_returns V wordCount specialCount numberCount
                HV Hreq' g) as ([pw e] & g' & Hrun & He).
    simpl in He. rewrite Hest in He. subst e. exists pw, g'. exact Hrun.
Qed.

Lemma generate_password_entropy_terms_witness :
  exists pw g',
    generate_password scenario_vocabulary 2 1 1 sample_rng
    = Ok ((pw, estimateEntropy scenario_vocabulary 2 1 1), g').
Proof.
  apply (@generate_password_entropy_terms scenario_vocabulary 2 1 1 sample_rng).
  - apply load_vocabulary_loaded.
  - lia.
  - lia.
  - lia.
  - left. lia.
Defined.

(** C4: [pick_words_dynamic n] returns the empty sequence for [n <= 0];
    with exactly one word list and [n >= 1] it returns [n] words, each an
    element of that list; with at least two word lists and [n >= 2] it
    returns [n] words. *)
Theorem pick_words_dynamic_lengths V n g :
  loaded V ->
  ((n <= 0)%Z -> pick_words_dynamic V n g = Ok ([], g))
  /\ ((1 <= n)%Z ->
      forall l, WORD_LISTS V = [l] ->
        exists ws g',
          pick_words_dynamic V n g = Ok (ws, g')
          /\ length ws = Z.to_nat n /\ Forall (fun w => In w l) ws)
  /\ ((2 <= n)%Z -> 2 <= length (WORD_LISTS V) ->
      exists ws g',
        pick_words_dynamic V n g = Ok (ws, g') /\ length ws = Z.to_nat n).
Proof.
  intros HV.
  destruct (@pick_words_dynamic_returns V n HV g)
    as (ws & g' & Hrun & Hlen & Hin).
  split; [| split].
  - intros Hn. unfold pick_words_dynamic.
    destruct (Z.leb_spec n 0); [reflexivity | lia].
  - intros _ l Hl. exists ws, g'. split; [exact Hrun |]. split; [exact Hlen |].
    eapply Forall_impl; [| exact Hin].
    intros w (l' & Hl' & Hw). rewrite Hl in Hl'.
    destruct Hl' as [<- | []]. exact Hw.
  - intros _ _. exists ws, g'. split; assumption.
Qed.

Lemma pick_words_dynamic_lengths_witness :
  exists ws g',
    pick_words_dynamic bilingual_vocabulary 3 sample_rng = Ok (ws, g')
    /\ length ws = 3.
Proof.
  apply (@pick_words_dynamic_lengths bilingual_vocabulary 3 sample_rng).
  - apply load_vocabulary_loaded.
  - lia.
  - simpl. lia.
Defined.

(** C5: [generate_password(0, 0, 0)] returns the empty password and
    exactly zero bits, for every vocabulary and every generator state, and
    draws nothing. *)
Theorem generate_password_zero_request V g :
  generate_password V 0 0 0 g = Ok ((""%string, 0%R), g).
Proof.
  rewrite generate_password_pool.
  erewrite bind_step by reflexivity.
  erewrite bind_step by reflexivity.
  erewrite bind_step by reflexivity.
  erewrite bind_step by apply entropy_bits_run.
  unfold ret. do 2 f_equal. f_equal.
  unfold entropy_value. simpl INR. lra.
Qed.

(** C6: [distribute_tokens] returns whenever there is a word to decorate or
    no token to place, and every output it returns reads as a sequence of
    segments, placed tokens and words, in which each token of the input
    occurs exactly once, the words are the input words in their order, each
    output element is one input word between its tokens, and deleting the
    token segments leaves the concatenation of the input words. *)
Theorem distribute_tokens_round_trip words tokens g :
  (words <> [] \/ tokens = [] ->
   exists out g', distribute_tokens words tokens g = Ok (out, g'))
  /\ (forall out g',
        distribute_tokens words tokens g = Ok (out, g') ->
        exists segs,
          text segs = join out
          /\ Permutation (tokens_of segs) tokens
          /\ words_of segs = words
          /\ text (delete_tokens segs) = join words
          /\ Forall2 (fun w o => exists p q, o = (p ++ w ++ q)%string)
               words out).
Proof.
  split.
  - intros H. destruct (distribute_tokens_returns H g) as (out & g' & E & _).
    exists out, g'. exact E.
  - intros out g' Hrun. unfold distribute_tokens in Hrun.
    apply bind_Ok in Hrun. destruct Hrun as (ds & g1 & Hplace & Hret).
    unfold ret in Hret. injection Hret as <- _.
    rewrite undecorated_forget in Hplace.
    apply place_tokens_history in Hplace.
    destruct Hplace as (ps & -> & Hcore & Hperm).
    rewrite undecorated_core in Hcore.
    rewrite undecorated_placed, app_nil_r in Hperm.
    rewrite map_map.
    exists (flat_map segments ps).
    rewrite text_delete_tokens, tokens_of_flat_segments,
      words_of_flat_segments, text_flat_segments, Hcore.
    repeat split; try assumption.
    rewrite <- Hcore. apply decorated_around.
Qed.

(** C7: with no token, [distribute_tokens] returns the words unchanged and
    draws nothing, so the concatenation of its output is the concatenation
    of the input words. *)
Theorem distribute_tokens_no_tokens words g :
  distribute_tokens words [] g = Ok (words, g)
  /\ (forall out g',
        distribute_tokens words [] g = Ok (out, g') ->
        out = words /\ join out = join words).
Proof.
  assert (E : distribute_tokens words [] g = Ok (words, g)).
  { unfold distribute_tokens, bind, ret. simpl. do 2 f_equal.
    rewrite map_map. unfold render. simpl.
    induction words as [| w words IH]; simpl; [reflexivity |].
    rewrite append_empty_r, IH. reflexivity. }
  split; [exact E |].
  intros out g' Hrun. rewrite E in Hrun. injection Hrun as <- _.
  split; reflexivity.
Qed.

(** C8: with the vocabulary fixed, over non-negative counts, the entropy
    estimate does not decrease when the word count, the special count or
    the number count grows while the other two stay as they are: the
    entropy expression evaluates at both requests, to ordered values, and
    so do the entropies [generate_password] returns. *)
Theorem generate_password_entropy_monotone V w s n w' s' n' :
  (0 <= w)%Z -> (0 <= s)%Z -> (0 <= n)%Z ->
  grows (w, s, n) (w', s', n') ->
  (exists e e',
      (forall g, entropy_bits V w s n (token_count s n) g = Ok (e, g))
      /\ (forall g,
            entropy_bits V w' s' n' (token_count s' n') g = Ok (e', g))
      /\ (e <= e')%R)
  /\ (forall e e',
        entropy_of V w s n e -> entropy_of V w' s' n' e' -> (e <= e')%R).
Proof.
  intros _ _ _ Hgrows.
  assert (Hle : (w <= w')%Z /\ (s <= s')%Z /\ (n <= n')%Z)
    by (inversion Hgrows; subst; lia).
  destruct Hle as (Hw & Hs & Hn).
  pose proof (@entropy_value_le V w w' s s' n n' Hw Hs Hn) as Hval.
  split.
  - exists (entropy_value V w s n (token_count s n)),
           (entropy_value V w' s' n' (token_count s' n')).
    split; [intros g; apply entropy_bits_run |].
    split; [intros g; apply entropy_bits_run | exact Hval].
  - intros e e' He He'.
    rewrite (entropy_of_value He), (entropy_of_value He'). exact Hval.
Qed.

Lemma generate_password_entropy_monotone_witness :
  (exists e e',
      (forall g,
          entropy_bits scenario_vocabulary 0 1 0 (token_count 1 0) g
          = Ok (e, g))
      /\ (forall g,
            entropy_bits scenario_vocabulary 1 1 0 (token_count 1 0) g
            = Ok (e', g))
      /\ (e <= e')%R)
  /\ (forall e e',
        entropy_of scenario_vocabulary 0 1 0 e ->
        entropy_of scenario_vocabulary 1 1 0 e' -> (e <= e')%R).
Proof.
  apply (@generate_password_entropy_monotone scenario_vocabulary 0 1 0 1 1 0).
  - lia.
  - lia.
  - lia.
  - apply grows_words. lia.
Defined.

(** C9: the entropy [generate_password] returns is determined by the
    request and the sizes of the vocabulary: two runs on the same request,
    from any two generator states and over vocabularies of the same sizes
    (the same vocabulary in particular), return equal entropies, whatever
    was drawn for the passwords. *)
Theorem generate_password_entropy_deterministic V1 V2 w s n e1 e2 :
  vocabulary_sizes V1 = vocabulary_sizes V2 ->
  entropy_of V1 w s n e1 -> entropy_of V2 w s n e2 ->
  e1 = e2.
Proof.
  intros Hsizes He1 He2.
  rewrite (entropy_of_value He1), (entropy_of_value He2).
  apply entropy_value_sizes, Hsizes.
Qed.

Lemma generate_password_entropy_deterministic_witness :
  exists e1 e2,
    entropy_of scenario_vocabulary 2 1 1 e1
    /\ entropy_of scenario_vocabulary_fr 2 1 1 e2
    /\ e1 = e2.
Proof.
  assert (H : (1 <= 2)%Z \/ token_count 1 1 = 0) by (left; lia).
  destruct (@entropy_of_exists scenario_vocabulary 2 1 1 sample_rng
              (load_vocabulary_loaded _ _ _) H)
    as (pw1 & e1 & g1 & Hrun1).
  destruct (@entropy_of_exists scenario_vocabulary_fr 2 1 1 zero_rng
              (load_vocabulary_loaded _ _ _) H)
    as (pw2 & e2 & g2 & Hrun2).
  exists e1, e2.
  assert (He1 : entropy_of scenario_vocabulary 2 1 1 e1)
    by (exists sample_rng, pw1, g1; exact Hrun1).
  assert (He2 : entropy_of scenario_vocabulary_fr 2 1 1 e2)
    by (exists zero_rng, pw2, g2; exact Hrun2).
  split; [exact He1 |]. split; [exact He2 |].
  apply (@generate_password_entropy_deterministic
           scenario_vocabulary scenario_vocabulary_fr 2 1 1 e1 e2);
    [reflexivity | exact He1 | exact He2].
Defined.

(** C10: with at least two word lists, [pick_words_dynamic 1] is one
    [random.choice] on the first word list: the word it returns is an
    element of list 0; and for every [n] the words it returns are elements
    of word lists of the collection. *)
Theorem pick_words_dynamic_membership V g :
  loaded V ->
  (2 <= length (WORD_LISTS V) ->
   exists l0 rest,
     WORD_LISTS V = l0 :: rest
     /\ pick_words_dynamic V 1 g = comprehension 1 (choice l0) g
     /\ exists w g', pick_words_dynamic V 1 g = Ok ([w], g') /\ In w l0)
  /\ (forall n,
        exists ws g',
          pick_words_dynamic V n g = Ok (ws, g')
          /\ Forall (in_vocabulary V) ws).
Proof.
  intros HV. split.
  - intros _. pose proof (loaded_words HV) as Hws.
    destruct (WORD_LISTS V) as [| l0 rest] eqn:EV;
      [exfalso; apply (loaded_lists HV), EV |].
    exists l0, rest. split; [reflexivity |].
    assert (E : pick_words_dynamic V 1 g = comprehension 1 (choice l0) g).
    { rewrite pick_words_dynamic_single;
        [| lia | rewrite orb_true_r; reflexivity].
      rewrite EV. reflexivity. }
    split; [exact E |]. rewrite E.
    inversion Hws as [| ? ? Hl0 _]; subst.
    destruct (comprehension_returns 1 (choice_returns Hl0) g)
      as (ws & g' & Hrun & Hlen & Hin).
    destruct ws as [| w [| ? ?]]; try discriminate.
    exists w, g'. split; [exact Hrun |]. inversion Hin; assumption.
  - intros n.
    destruct (@pick_words_dynamic_returns V n HV g)
      as (ws & g' & Hrun & _ & Hin).
    exists ws, g'. split; assumption.
Qed.

Lemma pick_words_dynamic_membership_witness :
  exists l0 rest,
    WORD_LISTS bilingual_vocabulary = l0 :: rest
    /\ pick_words_dynamic bilingual_vocabulary 1 sample_rng
       = comprehension 1 (choice l0) sample_rng
    /\ exists w g',
         pick_words_dynamic bilingual_vocabulary 1 sample_rng = Ok ([w], g')
         /\ In w l0.
Proof.
  apply (@pick_words_dynamic_membership bilingual_vocabulary sample_rng).
  - apply load_vocabulary_loaded.
  - simpl. lia.
Defined.

(** ** Stripped lines *)















(** ** Lengths and arrival order *)

Lemma string_length_append (s t : string) :
  String.length (s ++ t) = String.length s + String.length t.
Proof. induction s as [| c s IH]; simpl; [| rewrite IH]; reflexivity. Qed.

Lemma string_length_join (l : list string) :
  String.length (join l) = list_sum (map String.length l).
Proof.
  induction l as [| s l IH]; [reflexivity |].
  rewrite join_cons, string_length_append, IH. reflexivity.
Qed.

Lemma string_length_text (segs : list segment) :
  String.length (text segs)
  = list_sum (map String.length (words_of segs))
    + list_sum (map String.length (tokens_of segs)).
Proof.
  unfold text. rewrite string_length_join.
  induction segs as [| [t | w] segs IH]; simpl; [reflexivity | |];
    rewrite IH; lia.
Qed.

(** The history of a returned output: one placement for each word, in
    order, holding every token once. *)
Lemma distribute_tokens_history words tokens g out g' :
  distribute_tokens words tokens g = Ok (out, g') ->
  exists ps,
    out = map (fun p => render (forget p)) ps
    /\ map core ps = words
    /\ Permutation (flat_map placed ps) tokens.
Proof.
  intros Hrun. unfold distribute_tokens in Hrun.
  apply bind_Ok in Hrun. destruct Hrun as (ds & g1 & Hplace & Hret).
  unfold ret in Hret. injection Hret as <- _.
  rewrite undecorated_forget in Hplace.
  apply place_tokens_history in Hplace.
  destruct Hplace as (ps & -> & Hcore & Hperm).
  rewrite undecorated_core in Hcore.
  rewrite undecorated_placed, app_nil_r in Hperm.
  exists ps. rewrite map_map. repeat split; assumption.
Qed.

Lemma subseq_refl {A} (l : list A) : subseq l l.
Proof. induction l; constructor; assumption. Qed.

Lemma subseq_nil_l {A} (l : list A) : subseq [] l.
Proof. induction l; constructor; assumption. Qed.

Lemma gained_nil p : gained [] p p.
Proof.
  split; [reflexivity |]. exists [], [].
  rewrite !app_nil_r. repeat split; constructor.
Qed.

Lemma gained_skip t rest p p' : gained rest p p' -> gained (t :: rest) p p'.
Proof.
  intros (Hc & b & a & Hb & Ha & Sb & Sa). split; [exact Hc |].
  exists b, a. repeat split; try assumption; constructor; assumption.
Qed.

Lemma Forall2_setitem {A B} (R R' : A -> B -> Prop) (l : list A) (l' : list B)
    i a a1 :
  nth_error l i = Some a ->
  (forall b, R a1 b -> R' a b) ->
  (forall x b, R x b -> R' x b) ->
  Forall2 R (setitem l i a1) l' -> Forall2 R' l l'.
Proof.
  intros Ha H1 Hall. revert i l' Ha.
  induction l as [| h t IH]; intros [| j] l' Ha HF; simpl in *;
    try discriminate.
  - injection Ha as ->. inversion HF; subst. constructor; [auto |].
    eapply Forall2_impl; [exact Hall | eassumption].
  - inversion HF; subst. constructor; [auto |]. eapply IH; eassumption.
Qed.

(** Tokens join a side in arrival order: what a side gains is the tokens
    of the input that landed there, in the order of the input. *)
Lemma place_tokens_order tokens :
  forall ps g ds g',
    place_tokens tokens (map forget ps) g = Ok (ds, g') ->
    exists ps', ds = map forget ps' /\ Forall2 (gained tokens) ps ps'.
Proof.
  induction tokens as [| t rest IH]; intros ps g ds g' Hrun.
  - simpl in Hrun. inv_run. exists ps. split; [reflexivity |].
    induction ps; constructor; [apply gained_nil | assumption].
  - simpl place_tokens in Hrun.
    apply bind_Ok in Hrun. destruct Hrun as (idx & g1 & _ & Hrun).
    apply bind_Ok in Hrun. destruct Hrun as (x & g2 & _ & Hrun).
    apply bind_Ok in Hrun. destruct Hrun as (d & g3 & Ed & Hrun).
    apply getitem_Ok in Ed. destruct Ed as [Ed _].
    rewrite nth_error_map in Ed.
    destruct (nth_error ps idx) as [p |] eqn:Ep; [| discriminate].
    injection Ed as <-.
    set (p1 := if lt_half x
               then {| before := before p ++ [t]; core := core p;
                       after := after p |}
               else {| before := before p; core := core p;
                       after := after p ++ [t] |}).
    assert (Hd : (if lt_half x
                  then {| pre := (pre (forget p) ++ t)%string;
                          word := word (forget p); post := post (forget p) |}
                  else {| pre := pre (forget p); word := word (forget p);
                          post := (post (forget p) ++ t)%string |})
                 = forget p1).
    { unfold p1, forget. destruct (lt_half x); simpl; rewrite join_snoc;
        reflexivity. }
    rewrite Hd, setitem_map in Hrun.
    apply IH in Hrun. destruct Hrun as (ps' & -> & HF).
    exists ps'. split; [reflexivity |].
    eapply Forall2_setitem; [exact Ep | | | exact HF].
    + intros p' (Hc & b & a & Hb & Ha & Sb & Sa).
      unfold p1 in Hc, Hb, Ha. destruct (lt_half x); simpl in Hc, Hb, Ha.
      * split; [exact Hc |]. exists (t :: b), a.
        rewrite Hb, <- app_assoc. repeat split; trivial;
          constructor; assumption.
      * split; [exact Hc |]. exists b, (t :: a).
        rewrite Ha, <- app_assoc. repeat split; trivial;
          constructor; assumption.
    + intros q p'. apply gained_skip.
Qed.

(** ** Contents of the word selection and of the token pool *)




Lemma fill_selected_prefix V n_words selected :
  loaded V ->
  returns (fill_selected V n_words selected)
    (fun out => exists extra, out = selected ++ extra).
Proof.
  intros HV.
  remember (Z.to_nat (n_words - Z.of_nat (length selected))) as k eqn:Ek.
  revert selected Ek.
  induction k as [| k IH]; intros selected Ek; rewrite fill_selected_step.
  - destruct (Z.ltb_spec (Z.of_nat (length selected)) n_words) as [H | H];
      [lia |].
    apply returns_ret. exists []. symmetry. apply app_nil_r.
  - destruct (Z.ltb_spec (Z.of_nat (length selected)) n_words) as [H | H];
      [| lia].
    eapply returns_bind; [apply choice_returns, (loaded_lists HV) |].
    intros li Hli.
    eapply returns_bind.
    { apply choice_returns.
      exact (proj1 (Forall_forall _ _) (loaded_words HV) li Hli). }
    intros w Hw.
    eapply returns_weaken.
    + apply (IH (selected ++ [w])). rewrite length_app. simpl. lia.
    + intros out (extra & ->). exists (w :: extra).
      rewrite <- app_assoc. reflexivity.
Qed.

Lemma pick_words_dynamic_diverse V n_words :
  loaded V -> (2 <= n_words)%Z -> 2 <= length (WORD_LISTS V) ->
  returns (pick_words_dynamic V n_words) (diverse V).
Proof.
  intros HV Hn Hlen. unfold pick_words_dynamic.
  destruct (Z.leb_spec n_words 0) as [H0 | _]; [lia |].
  pose proof (loaded_words HV) as Hws. rewrite Forall_forall in Hws.
  replace (Nat.eqb (length (WORD_LISTS V)) 1) with false
    by (symmetry; apply Nat.eqb_neq; lia).
  replace (n_words =? 1)%Z with false by (symmetry; apply Z.eqb_neq; lia).
  simpl orb. cbv iota.
  eapply returns_bind; [apply shuffle_returns |]. intros lists Hp.
  cbv beta in Hp.
  assert (Hidx : forall i k, nth_error lists i = Some k ->
                   k < length (WORD_LISTS V)).
  { intros i k E. apply nth_error_In in E.
    apply (Permutation_in _ Hp) in E. apply in_seq in E. lia. }
  assert (Hll : length lists = length (WORD_LISTS V)).
  { rewrite (Permutation_length Hp). apply length_seq. }
  assert (Hnd : NoDup lists).
  { eapply Permutation_NoDup; [apply Permutation_sym, Hp | apply seq_NoDup]. }
  eapply returns_bind; [apply getitem_returns; lia |]. intros idx_a Ea.
  eapply returns_bind; [apply getitem_returns; lia |]. intros idx_b Eb.
  cbv beta in Ea, Eb.
  assert (Hab : idx_a <> idx_b).
  { intros ->. rewrite NoDup_nth_error in Hnd.
    assert (0 = 1) by (apply Hnd; [lia | congruence]). discriminate. }
  eapply returns_bind; [apply getitem_returns, (Hidx _ _ Ea) |].
  intros list_a Ela. cbv beta in Ela.
  eapply returns_bind;
    [apply choice_returns, Hws; eapply nth_error_In, Ela |].
  intros word_a Hwa.
  eapply returns_bind; [apply getitem_returns, (Hidx _ _ Eb) |].
  intros list_b Elb. cbv beta in Elb.
  eapply returns_bind;
    [apply choice_returns, Hws; eapply nth_error_In, Elb |].
  intros word_b Hwb.
  eapply returns_bind; [apply fill_selected_prefix, HV |].
  intros selected (extra & ->).
  eapply returns_weaken; [apply shuffle_returns |].
  intros ws Hperm.
  exists idx_a, idx_b, list_a, list_b, word_a, word_b, extra.
  repeat split; assumption.
Qed.

(** ** Runs of the interface actions *)

Lemma value_Ok {A} (r : result (A * rng)) a :
  value r = Ok a -> exists g', r = Ok (a, g').
Proof.
  destruct r as [[a0 g0] | e]; simpl; [| discriminate].
  intros [= ->]. exists g0. reflexivity.
Qed.


Lemma append_history_fold (lines : list string) (old : string) :
  fold_left (fun f line => (f ++ (line ++ newline))%string) lines old
  = (old ++ join (map (fun line => (line ++ newline)%string) lines))%string.
Proof.
  revert old. induction lines as [| l lines IH]; intros old; simpl.
  - symmetry. apply append_empty_r.
  - rewrite IH, join_cons, append_associative. reflexivity.
Qed.


Lemma scenario_entropy_of : entropy_of scenario_vocabulary 2 1 1 8%R.
Proof.
  assert (HV : loaded scenario_vocabulary) by apply load_vocabulary_loaded.
  assert (Hreq : (1 <= 2)%Z \/ token_count 1 1 = 0) by (left; lia).
  destruct (@generate_password_returns scenario_vocabulary 2 1 1 HV Hreq
              sample_rng) as ([pw e] & g' & Hrun & He).
  simpl in He. rewrite entropy_value_estimate in He;
    [| apply (loaded_lists HV) | lia | lia].
  rewrite scenario_entropy in He. subst e.
  exists sample_rng, pw, g'. exact Hrun.
Qed.



Lemma entropy_value_lower V w s n :
  (0 <= w)%Z -> (0 <= s)%Z -> (0 <= n)%Z ->
  (IZR (w + s + n) <= entropy_value V w s n (token_count s n))%R.
Proof.
  intros Hw Hs Hn. unfold entropy_value, token_count.
  rewrite plus_INR, !INR_to_nat_max, !Z.max_r by lia.
  rewrite !plus_IZR.
  pose proof (word_bits_ge_1 V) as Hwb.
  pose proof (table_bits_nonneg (SPECIALS V)) as Hsb.
  pose proof (table_bits_nonneg (NUMBERS V)) as Hnb.
  pose proof (place_bits_ge_1 w) as Hpb.
  pose proof (IZR_le _ _ Hw) as Hw'.
  pose proof (IZR_le _ _ Hs) as Hs'.
  pose proof (IZR_le _ _ Hn) as Hn'.
  assert (H1 : (IZR w * 1 <= IZR w * word_bits V)%R)
    by (apply Rmult_le_compat_l; lra).
  assert (H2 : (0 <= IZR s * table_bits (SPECIALS V))%R)
    by (apply Rmult_le_pos; lra).
  assert (H3 : (0 <= IZR n * table_bits (NUMBERS V))%R)
    by (apply Rmult_le_pos; lra).
  assert (H4 : ((IZR s + IZR n) * 1 <= (IZR s + IZR n) * place_bits w)%R)
    by (apply Rmult_le_compat_l; lra).
  lra.
Qed.

Example load_file_lines_sample :
  load_file_lines
    (Some [("  apple " ++ newline)%string; newline; "berry"; "   "])
  = ["apple"; "berry"].
Proof. reflexivity. Qed.

Example append_history_sample :
  append_history ["b"; "c"] (Some ("a" ++ newline)%string)
  = Some ("a" ++ newline ++ "b" ++ newline ++ "c" ++ newline)%string.
Proof. reflexivity. Qed.

(** ** Further properties *)





(** X5: with at least two word lists and at least two words requested,
    [pick_words_dynamic] returns a selection in which two words were drawn
    from two different word lists, as its docstring promises. *)
Theorem pick_words_dynamic_two_lists V n_words g :
  loaded V -> (2 <= n_words)%Z -> 2 <= length (WORD_LISTS V) ->
  exists ws g',
    pick_words_dynamic V n_words g = Ok (ws, g') /\ diverse V ws.
Proof.
  intros HV Hn Hlen.
  destruct (@pick_words_dynamic_diverse V n_words HV Hn Hlen g)
    as (ws & g' & Hrun & Hdiv).
  exists ws, g'. split; assumption.
Qed.

Lemma pick_words_dynamic_two_lists_witness :
  exists ws g',
    pick_words_dynamic bilingual_vocabulary 3 sample_rng = Ok (ws, g')
    /\ diverse bilingual_vocabulary ws.
Proof.
  apply (@pick_words_dynamic_two_lists bilingual_vocabulary 3 sample_rng).
  - apply load_vocabulary_loaded.
  - lia.
  - simpl. lia.
Defined.

(** X6: [distribute_tokens] raises exactly when there is a token to place
    and no word to place it on, and the exception is then the [ValueError]
    of [random.randrange]; in every other case it returns. *)
Theorem distribute_tokens_raises_iff words tokens g e :
  distribute_tokens words tokens g = Raise e
  <-> words = [] /\ tokens <> [] /\ e = ValueError.
Proof.
  split.
  - intros Hrun. destruct words as [| w words].
    + destruct tokens as [| t tokens]; [discriminate Hrun |].
      rewrite distribute_tokens_no_words in Hrun. injection Hrun as <-.
      repeat split. discriminate.
    + assert (Hne : w :: words <> [] \/ tokens = [])
        by (left; discriminate).
      destruct (@distribute_tokens_returns (w :: words) tokens Hne g)
        as (out & g' & E & _).
      rewrite E in Hrun. discriminate.
  - intros (-> & Ht & ->). destruct tokens as [| t tokens]; [congruence |].
    apply distribute_tokens_no_words.
Qed.

(** X7: the output of [distribute_tokens] has one element for each word,
    and the joined output is as long as the words and the tokens together:
    no character is lost and none is added. *)
Theorem distribute_tokens_lengths words tokens g out :
  value (distribute_tokens words tokens g) = Ok out ->
  length out = length words
  /\ String.length (join out)
     = String.length (join words) + String.length (join tokens).
Proof.
  intros Hval. apply value_Ok in Hval. destruct Hval as (g' & Hrun).
  apply distribute_tokens_history in Hrun.
  destruct Hrun as (ps & -> & Hcore & Hperm). split.
  - rewrite <- Hcore, !length_map. reflexivity.
  - rewrite <- text_flat_segments, string_length_text,
      words_of_flat_segments, tokens_of_flat_segments, Hcore.
    rewrite !string_length_join.
    rewrite (@Permutation_list_sum _ _
               (Permutation_map String.length Hperm)).
    reflexivity.
Qed.

Lemma distribute_tokens_lengths_witness :
  length ["a"; "1?b"; "2!c"] = length ["a"; "b"; "c"]
  /\ String.length (join ["a"; "1?b"; "2!c"])
     = String.length (join ["a"; "b"; "c"])
       + String.length (join ["1"; "2"; "!"; "?"]).
Proof.
  apply (@distribute_tokens_lengths ["a"; "b"; "c"] ["1"; "2"; "!"; "?"]
           sample_rng).
  vm_compute. reflexivity.
Defined.

(** X8: each element of the output of [distribute_tokens] is its word
    between the tokens that landed before it and after it, and on each side
    the tokens stand in the order in which the input lists them. *)
Theorem distribute_tokens_arrival_order words tokens g out :
  value (distribute_tokens words tokens g) = Ok out ->
  Forall2
    (fun w o =>
       exists b a,
         o = (join b ++ w ++ join a)%string
         /\ subseq b tokens /\ subseq a tokens)
    words out.
Proof.
  intros Hval. apply value_Ok in Hval. destruct Hval as (g' & Hrun).
  unfold distribute_tokens in Hrun.
  apply bind_Ok in Hrun. destruct Hrun as (ds & g1 & Hplace & Hret).
  unfold ret in Hret. injection Hret as <- _.
  rewrite undecorated_forget in Hplace.
  apply place_tokens_order in Hplace. destruct Hplace as (ps & -> & HF).
  rewrite map_map.
  remember (map undecorated words) as us eqn:Eus.
  revert words Eus. induction HF as [| u p us ps Hg _ IH]; intros words Eus.
  - destruct words; [constructor | discriminate].
  - destruct words as [| w words]; [discriminate |].
    injection Eus as -> Eus. simpl. constructor; [| apply IH, Eus].
    destruct Hg as (Hc & b & a & Hb & Ha & Sb & Sa). simpl in Hc, Hb, Ha.
    exists b, a. unfold render, forget. simpl. rewrite Hc, Hb, Ha.
    repeat split; assumption.
Qed.

Lemma distribute_tokens_arrival_order_witness :
  Forall2
    (fun w o =>
       exists b a,
         o = (join b ++ w ++ join a)%string
         /\ subseq b ["1"; "2"; "!"; "?"] /\ subseq a ["1"; "2"; "!"; "?"])
    ["a"; "b"; "c"] ["a"; "1?b"; "2!c"].
Proof.
  apply (@distribute_tokens_arrival_order ["a"; "b"; "c"]
           ["1"; "2"; "!"; "?"] sample_rng).
  vm_compute. reflexivity.
Defined.






(** X12: for a request of non-negative counts the entropy is at least one
    bit for each word and for each token, so it is never negative: the
    entropy expression evaluates to such a value and so does every entropy
    [generate_password] returns. *)
Theorem generate_password_entropy_lower_bound V w s n :
  (0 <= w)%Z -> (0 <= s)%Z -> (0 <= n)%Z ->
  (exists e,
      (forall g, entropy_bits V w s n (token_count s n) g = Ok (e, g))
      /\ (IZR (w + s + n) <= e)%R)
  /\ (forall e, entropy_of V w s n e -> (IZR (w + s + n) <= e)%R).
Proof.
  intros Hw Hs Hn.
  pose proof (@entropy_value_lower V w s n Hw Hs Hn) as Hlow. split.
  - exists (entropy_value V w s n (token_count s n)).
    split; [intros g; apply entropy_bits_run | exact Hlow].
  - intros e He. rewrite (entropy_of_value He). exact Hlow.
Qed.

Lemma generate_password_entropy_lower_bound_witness :
  (IZR (2 + 1 + 1) <= 8)%R.
Proof.
  apply (proj2 (@generate_password_entropy_lower_bound scenario_vocabulary
                  2 1 1 ltac:(lia) ltac:(lia) ltac:(lia))).
  apply scenario_entropy_of.
Defined.

(** X13: [append_history] keeps what the file held and adds each line
    followed by a newline, in order, creating the file when it is missing;
    two appends in a row write what one append of both batches writes. *)
Theorem append_history_text lines more h :
  append_history lines h
  = Some ((match h with None => "" | Some written => written end
           ++ join (map (fun line => (line ++ newline)%string) lines))%string)
  /\ append_history more (append_history lines h)
     = append_history (lines ++ more) h.
Proof.
  unfold append_history. split.
  - rewrite append_history_fold. reflexivity.
  - rewrite fold_left_app. reflexivity.
Qed.



(** X15: with integer entries asking for no word and for at least one
    token, over a loaded vocabulary, [generate] ends with the [ValueError]
    of the first password and the history is left as it was. *)
Theorem generate_raises_keeps_history V n_w n_s n_n h g :
  loaded V -> (n_w <= 0)%Z -> 0 < token_count n_s n_n ->
  generate V (Some n_w) (Some n_s) (Some n_n) h g = (Raise ValueError, h).
Proof.
  intros HV Hw Hk. unfold generate. simpl generate_rows.
  erewrite bind_Raise by (apply generate_password_raises; assumption).
  reflexivity.
Qed.

Lemma generate_raises_keeps_history_witness :
  generate fallback_vocabulary (Some 0%Z) (Some 1%Z) (Some 0%Z)
    (Some "old") sample_rng
  = (Raise ValueError, Some "old").
Proof.
  apply (@generate_raises_keeps_history fallback_vocabulary 0 1 0
           (Some "old") sample_rng).
  - apply load_vocabulary_loaded.
  - lia.
  - unfold token_count. simpl. lia.
Defined.


